(** * The IK feedback handler of the interactive-marker command interface

    A shallow embedding of [src/interface/ik_command_interactive_marker.cpp]:
    the two marker-name helpers and the POSE_UPDATE branch of
    [IKCommandInteractiveMarker::processInteractiveMarkerFeedback], which
    re-expresses every bounded revolute variable of a fresh IK solution as
    the 2*pi-equivalent angle nearest the seed and undoes the change when
    the joint bounds reject it.

    Numbers.  A C++ [double] is read as an exact rational in canonical
    form ([Qc]): every operation below is the exact counterpart of the
    floating-point one and rounding is not modelled.  [M_PI] is the
    rational that the binary64 constant of <cmath> denotes.  The C++ [int]
    that receives [(int)std::fabs(...)] is read as [Z]; the conversion
    truncates toward zero and C++ defines it only while the truncated
    value fits an [int] ([twopi_hops_fits_int] gives the range of inputs
    for which it does).

    The file goes on to the marker bookkeeping of the same source file
    ([setActiveJointGroup], [reinitInteractiveMarkers],
    [updateInteractiveMarkers]) and to [updateRobotVisualization] and
    [isVariableAngle] of [src/move_group_command_panel.cpp]. *)

From Stdlib Require Import QArith Qcanon Qcabs Qround Lqa Lia String.
From stdpp Require Import base numbers list.

Local Open Scope Qc_scope.

(** ** Doubles as canonical rationals *)

Module Double.

(** [M_PI] of <cmath>: 0x400921FB54442D18 = 884279719003555 / 2^48. *)
Definition M_PI : Qc := Q2Qc (884279719003555 # 281474976710656).

(** The literal [2.0]. *)
Definition two : Qc := Q2Qc (2 # 1).

(** [std::fabs]. *)
Definition fabs (x : Qc) : Qc := Qcabs x.

(** [std::copysign(1.0, x)]: 1.0 carrying the sign of [x]. *)
Definition copysign1 (x : Qc) : Qc :=
  if Qclt_le_dec x 0 then - Q2Qc 1 else Q2Qc 1.

(** [(int)x]: truncation toward zero. *)
Definition to_int (x : Qc) : Z := Z.quot (Qnum x) (Zpos (Qden x)).

(** [(double)n], the implicit conversion of an [int] operand. *)
Definition of_int (n : Z) : Qc := Q2Qc (inject_Z n).


End Double.

Import Double.

(** ** The normalisation arithmetic (lines 96-108 of the handler) *)

(** [vdiff = seed[gvidx] - spos]. *)
Definition vdiff (seed_pos spos : Qc) : Qc := seed_pos - spos.

(** [twopi_hops = (int)std::fabs(vdiff / (2.0 * M_PI))]. *)
Definition twopi_hops (seed_pos spos : Qc) : Z :=
  to_int (fabs (vdiff seed_pos spos / (two * M_PI))).

(** [npos] as first assigned on line 105. *)
Definition npos_hops (seed_pos spos : Qc) : Qc :=
  spos + (two * M_PI) * of_int (twopi_hops seed_pos spos)
         * copysign1 (vdiff seed_pos spos).

(** [npos] after the conditional extra hop of lines 106-108: the candidate
    handed to [setVariablePosition]. *)
Definition npos (seed_pos spos : Qc) : Qc :=
  let n := npos_hops seed_pos spos in
  if Qclt_le_dec M_PI (fabs (n - seed_pos))
  then n + two * M_PI * copysign1 (vdiff seed_pos spos)
  else n.

(** ** The joint model and the robot state the handler works on *)

(** [moveit::core::JointModel::JointType]. *)
Inductive JointType : Set :=
  UNKNOWN | REVOLUTE | PRISMATIC | PLANAR | FLOATING | FIXED.

#[global] Instance JointType_eq_dec : EqDecision JointType.
Proof. solve_decision. Defined.

(** [moveit::core::VariableBounds], the fields the handler and the bounds
    check read. *)
Record VariableBounds : Set := {
  min_position_ : Qc;
  max_position_ : Qc;
  position_bounded_ : bool
}.

(** What the handler reads of the joint [rm->getJointOfVariable(vidx)]:
    its type and [getVariableBounds()[0]], the bounds of its first
    variable (for a REVOLUTE joint its only variable, [vidx] itself). *)
Record JointModel : Set := {
  getType : JointType;
  getVariableBounds_0 : VariableBounds
}.

(** [moveit::core::JointModelGroup]: [getVariableIndexList()] maps the
    position [gvidx] of a variable in the group to its index [vidx] in
    the robot state. *)
Record JointModelGroup : Set := {
  getVariableIndexList : list nat
}.

Record RobotModel : Type := {
  getJointModelGroup : string -> option JointModelGroup;
  getJointOfVariable : nat -> JointModel
}.

(** The variable positions of [moveit::core::RobotState], by variable
    index.  C++ leaves an access outside the array undefined; here such a
    read yields 0 and such a write does nothing, and the properties that
    depend on the difference assume [wf_group]. *)
Abbreviation RobotState := (list Qc).

#[global] Instance Qc_inhabited : Inhabited Qc := populate 0.

(** What the handler writes to the ROS log above debug level. *)
Inductive LogEntry : Set :=
| ERROR_no_joint_group (group_name : string)
    (* ROS_ERROR("Failed to retrieve joint group '%s'", ...) *)
| WARN_out_of_bounds (gvidx : nat).
    (* ROS_WARN("normalized value for '%s' out of bounds", name of gvidx) *)

(** The state the handler acts on: the robot state owned by [m_model] and
    the log. *)
Record World : Type := {
  robot_state : RobotState;
  rosout : list LogEntry
}.

(** Modelled from the spec: the Joint Model collaborator's [get(i)];
    [RobotState::getVariablePosition] is not under src/. *)
Definition getVariablePosition (st : RobotState) (vidx : nat) : Qc :=
  st !!! vidx.

(** Modelled from the spec: the Joint Model collaborator's [set(i, value)];
    [RobotCommandModel::setVariablePosition] is not under src/. *)
Definition setVariablePosition (vidx : nat) (value : Qc) (w : World) : World :=
  {| robot_state := <[vidx := value]> (robot_state w); rosout := rosout w |}.

(** Modelled from the spec: the inclusive bound interval [lo, hi] of the
    Joint Model collaborator's [bounds(i)]. *)
Definition within_bounds (b : VariableBounds) (value : Qc) : bool :=
  bool_decide (min_position_ b <= value /\ value <= max_position_ b).

(** Modelled from the spec: [RobotState::satisfiesBounds(j)] (not under
    src/) for the joint of variable [vidx], validating the variable's
    current value against the joint's bound interval. *)
Definition satisfiesBounds (st : RobotState) (vidx : nat) (j : JointModel) : bool :=
  within_bounds (getVariableBounds_0 j) (getVariablePosition st vidx).

(** [robot_state->copyJointGroupPositions(jg, seed)]: the group's
    positions in group order. *)
Definition copyJointGroupPositions (jg : JointModelGroup) (st : RobotState)
  : list Qc :=
  (fun vidx => getVariablePosition st vidx) <$> getVariableIndexList jg.

Definition ros_log (e : LogEntry) (w : World) : World :=
  {| robot_state := robot_state w; rosout := rosout w ++ [e] |}.

(** ** The handler *)

(** The guard of lines 88-92, negated: the variable is normalised. *)
Definition eligible (j : JointModel) : bool :=
  negb (negb (bool_decide (getType j = REVOLUTE))
        || negb (position_bounded_ (getVariableBounds_0 j))).

(** One iteration of the loop of lines 83-123. *)
Definition normalize_variable (rm : RobotModel) (jg : JointModelGroup)
    (seed : list Qc) (w : World) (gvidx : nat) : World :=
  let vidx := getVariableIndexList jg !!! gvidx in
  let j := getJointOfVariable rm vidx in
  if negb (bool_decide (getType j = REVOLUTE))
     || negb (position_bounded_ (getVariableBounds_0 j))
  then w (* continue *)
  else
    let spos := getVariablePosition (robot_state w) vidx in
    let np := npos (seed !!! gvidx) spos in
    let w1 := setVariablePosition vidx np w in
    if negb (satisfiesBounds (robot_state w1) vidx j)
    then setVariablePosition vidx spos (ros_log (WARN_out_of_bounds gvidx) w1)
    else w1.

(** [for (size_t gvidx = 0; gvidx < seed.size(); ++gvidx)]. *)
Definition normalize (rm : RobotModel) (jg : JointModelGroup)
    (seed : list Qc) (w : World) : World :=
  foldl (normalize_variable rm jg seed) w (seq 0 (length seed)).

(** [visualization_msgs::InteractiveMarkerFeedback::event_type]. *)
Inductive EventType : Set :=
  KEEP_ALIVE | POSE_UPDATE | MENU_SELECT | BUTTON_CLICK | MOUSE_DOWN | MOUSE_UP.

Section Handler.

(** The target pose carried by the feedback message. *)
Variable Pose : Type.

Record InteractiveMarkerFeedback : Type := {
  marker_name : string;
  event_type : EventType;
  pose : Pose
}.

(** [m_model->setFromIK(jg, wrist_pose)], not under src/, with the
    interface the spec gives the IK solver: from the current state and
    the target pose, a solved state or failure. *)
Variable setFromIK : JointModelGroup -> Pose -> RobotState -> option RobotState.

Variable rm : RobotModel.
Variable m_active_group_name : string.

Definition processInteractiveMarkerFeedback
    (msg : InteractiveMarkerFeedback) (w : World) : World :=
  match event_type msg with
  | KEEP_ALIVE => w
  | POSE_UPDATE =>
    match getJointModelGroup rm m_active_group_name with
    | None => ros_log (ERROR_no_joint_group m_active_group_name) w
    | Some jg =>
      let seed := copyJointGroupPositions jg (robot_state w) in
      match setFromIK jg (pose msg) (robot_state w) with
      | Some solution =>
        normalize rm jg seed
          {| robot_state := solution; rosout := rosout w |}
      | None => w
      end
    end
  | MENU_SELECT | BUTTON_CLICK | MOUSE_DOWN | MOUSE_UP => w
  end.

End Handler.

Arguments marker_name {Pose} _.
Arguments event_type {Pose} _.
Arguments pose {Pose} _.
Arguments processInteractiveMarkerFeedback {Pose} _ _ _ _ _.

(** ** Marker names (lines 29-37) *)

Module StdString.

(** [std::string::npos], the largest [size_t]. *)
Definition npos : N := 18446744073709551615.

Fixpoint rfind_last (s pat : string) : option nat :=
  match s with
  | EmptyString => if String.prefix pat EmptyString then Some 0%nat else None
  | String _ s' =>
    match rfind_last s' pat with
    | Some p => Some (S p)
    | None => if String.prefix pat s then Some 0%nat else None
    end
  end.

(** [s.rfind(pat)]: where the last occurrence of [pat] in [s] starts, or
    [npos]. *)
Definition rfind (s pat : string) : N :=
  match rfind_last s pat with
  | Some p => N.of_nat p
  | None => npos
  end.

(** [s.substr(0, count)]: the first [min(count, size)] characters. *)
Definition substr_0 (s : string) (count : N) : string :=
  substring 0 (N.to_nat (N.min count (N.of_nat (String.length s)))) s.

End StdString.

Definition markerNameFromTipName (tip_name : string) : string :=
  (tip_name ++ "_controls")%string.

Definition tipNameFromMarkerName (marker_name : string) : string :=
  StdString.substr_0 marker_name (StdString.rfind marker_name "_control").

(** ** Summaries used to state the properties *)

(** The value one loop iteration leaves in an in-range variable, as a
    function of its joint, the seed entry and the solved value
    ([normalize_variable_robot_state] proves it of the code). *)
Definition normalized_value (j : JointModel) (seed_pos spos : Qc) : Qc :=
  if eligible j
  then if within_bounds (getVariableBounds_0 j) (npos seed_pos spos)
       then npos seed_pos spos
       else spos
  else spos.

(** What MoveIt guarantees of a joint group and the handler of its seed:
    the group's variable indices are distinct and address the robot
    state, and the seed has one entry per group variable. *)
Definition wf_group (jg : JointModelGroup) (seed : list Qc) (st : RobotState)
  : Prop :=
  NoDup (getVariableIndexList jg)
  /\ length seed = length (getVariableIndexList jg)
  /\ Forall (fun vidx => (vidx < length st)%nat) (getVariableIndexList jg).

(** Every bounded variable of the state lies in its bound interval. *)
Definition state_within_bounds (rm : RobotModel) (st : RobotState) : Prop :=
  forall (vidx : nat) (value : Qc),
    st !! vidx = Some value ->
    position_bounded_ (getVariableBounds_0 (getJointOfVariable rm vidx)) = true ->
    within_bounds (getVariableBounds_0 (getJointOfVariable rm vidx)) value = true.

(** ** A five-variable robot for the worked scenarios

    Variable 0 is a torso lift outside the arm group; the group "arm"
    lists variables 1 to 4.  Variables 1 and 2 are the bounded revolute
    joints of scenarios 2 and 3 of the spec (bounds [-pi, pi] and
    [-1, 1]), variable 3 has a joint of unknown type and variable 4 is a
    continuous revolute joint. *)

Module Demo.

Definition dec (n : Z) (d : positive) : Qc := Q2Qc (n # d).

Definition bounds (lo hi : Qc) : VariableBounds :=
  {| min_position_ := lo; max_position_ := hi; position_bounded_ := true |}.

Definition unbounded : VariableBounds :=
  {| min_position_ := 0; max_position_ := 0; position_bounded_ := false |}.

Definition joint (v : nat) : JointModel :=
  match v with
  | 0%nat => {| getType := PRISMATIC; getVariableBounds_0 := bounds 0 1 |}
  | 1%nat => {| getType := REVOLUTE; getVariableBounds_0 := bounds (- M_PI) M_PI |}
  | 2%nat => {| getType := REVOLUTE; getVariableBounds_0 := bounds (- (1)) 1 |}
  | 3%nat => {| getType := UNKNOWN; getVariableBounds_0 := bounds (- (1)) 1 |}
  | _ => {| getType := REVOLUTE; getVariableBounds_0 := unbounded |}
  end.

Definition arm : JointModelGroup :=
  {| getVariableIndexList := [1%nat; 2%nat; 3%nat; 4%nat] |}.

Definition robot : RobotModel :=
  {| getJointModelGroup := fun name =>
       if String.eqb name "arm" then Some arm else None;
     getJointOfVariable := joint |}.

(** The state when the marker is dragged, the seed captured from it, and
    the state the IK solver answers with. *)
Definition before : RobotState :=
  [dec 2 10; dec 3 1; dec 3 1; dec 5 10; dec 3 1].

Definition seed : list Qc := copyJointGroupPositions arm before.

Definition solved : RobotState :=
  [dec 2 10; dec (-32) 10; dec (-32) 10; dec 7 1; dec (-32) 10].

(** Scenario 1 of the spec at variable 1: seed 3.0, solution -3.0. *)
Definition solved_scenario_1 : RobotState :=
  [dec 2 10; dec (-3) 1; dec 5 10; dec 7 1; dec (-32) 10].

(** A solution that respects every bound. *)
Definition solved_in_bounds : RobotState :=
  [dec 2 10; dec (-31) 10; dec 5 10; dec 5 10; dec 9 1].

Definition world (st : RobotState) : World :=
  {| robot_state := st; rosout := [] |}.

Definition solver_ok (_ : JointModelGroup) (_ : unit) (_ : RobotState)
  : option RobotState := Some solved.

Definition solver_fails (_ : JointModelGroup) (_ : unit) (_ : RobotState)
  : option RobotState := None.

Definition drag : InteractiveMarkerFeedback unit :=
  {| marker_name := markerNameFromTipName "wrist";
     event_type := POSE_UPDATE;
     pose := tt |}.

End Demo.

(** ** Summaries used to state further properties *)

(** The test that makes one iteration log its warning: the variable at
    [gvidx] is eligible and its candidate, computed from the solved state
    [st], fails the bounds check. *)
Definition candidate_rejected (rm : RobotModel) (jg : JointModelGroup)
    (seed : list Qc) (st : RobotState) (gvidx : nat) : bool :=
  let vidx := getVariableIndexList jg !!! gvidx in
  let j := getJointOfVariable rm vidx in
  eligible j
  && negb (within_bounds (getVariableBounds_0 j)
             (npos (seed !!! gvidx) (st !!! vidx))).

(** [pat] occurs in [s]. *)
Definition occurs_in (pat s : string) : Prop :=
  exists a b : string, s = (a ++ pat ++ b)%string.

(** ** The interactive markers (lines 21-27, 39-47 and 136-272) *)

(** The messages of [visualization_msgs] the marker code fills in. *)
Module IM.

(** [InteractiveMarkerControl::orientation_mode]. *)
Inductive OrientationMode : Set := INHERIT | FIXED | VIEW_FACING.

(** [InteractiveMarkerControl::interaction_mode]. *)
Inductive InteractionMode : Set :=
  NONE | MENU | BUTTON | MOVE_AXIS | MOVE_PLANE | ROTATE_AXIS | MOVE_ROTATE
| MOVE_3D | ROTATE_3D | MOVE_ROTATE_3D.

Record Quaternion : Set := { qx : Qc; qy : Qc; qz : Qc; qw : Qc }.

Record Point : Set := { px : Qc; py : Qc; pz : Qc }.

Record Control : Set := {
  control_name : string;
  control_orientation : Quaternion;
  orientation_mode : OrientationMode;
  interaction_mode : InteractionMode;
  always_visible : bool
}.

Record InteractiveMarker : Set := {
  frame_id : string;
  position : Point;
  orientation : Quaternion;
  name : string;
  description : string;
  scale : Qc;
  controls : list Control
}.

(** The assignments to [dof_control] between two [push_back]s. *)
Definition with_orientation (w x y z : Qc) (c : Control) : Control :=
  {| control_name := control_name c;
     control_orientation := {| qx := x; qy := y; qz := z; qw := w |};
     orientation_mode := orientation_mode c;
     interaction_mode := interaction_mode c;
     always_visible := always_visible c |}.

Definition with_name_mode (n : string) (m : InteractionMode) (c : Control)
  : Control :=
  {| control_name := n;
     control_orientation := control_orientation c;
     orientation_mode := orientation_mode c;
     interaction_mode := m;
     always_visible := always_visible c |}.

End IM.

(** The body of the loop of lines 169-244 up to the insertion: the marker
    built for one tip link. *)
Definition tip_marker (model_frame tip_link_name : string) : IM.InteractiveMarker :=
  let dof_control :=
    {| IM.control_name := "";
       IM.control_orientation := {| IM.qx := 0; IM.qy := 0; IM.qz := 0; IM.qw := 0 |};
       IM.orientation_mode := IM.INHERIT;
       IM.interaction_mode := IM.NONE;
       IM.always_visible := false |} in
  let dof_control := IM.with_orientation 1 1 0 0 dof_control in
  let rotate_x := IM.with_name_mode "rotate_x" IM.ROTATE_AXIS dof_control in
  let move_x := IM.with_name_mode "move_x" IM.MOVE_AXIS rotate_x in
  let dof_control := IM.with_orientation 1 0 1 0 move_x in
  let rotate_z := IM.with_name_mode "rotate_z" IM.ROTATE_AXIS dof_control in
  let move_z := IM.with_name_mode "move_z" IM.MOVE_AXIS rotate_z in
  let dof_control := IM.with_orientation 1 0 0 1 move_z in
  let rotate_y := IM.with_name_mode "rotate_y" IM.ROTATE_AXIS dof_control in
  let move_y := IM.with_name_mode "move_y" IM.MOVE_AXIS rotate_y in
  {| IM.frame_id := model_frame;
     IM.position := {| IM.px := 0; IM.py := 0; IM.pz := 0 |};
     IM.orientation := {| IM.qx := 0; IM.qy := 0; IM.qz := 0; IM.qw := 1 |};
     IM.name := markerNameFromTipName tip_link_name;
     IM.description := ("ik control of link " ++ tip_link_name)%string;
     IM.scale := Q2Qc (20 # 100);
     IM.controls := [rotate_x; move_x; rotate_z; move_z; rotate_y; move_y] |}.

(** What the marker code writes to the ROS log. *)
Inductive MarkerLog : Set :=
| INFO_setup_markers
| INFO_remove_markers
| INFO_adding_marker (tip_link_name : string)
| WARN_no_robot_model
| WARN_no_active_group
| ERROR_retrieve_joint_group (group_name : string)
| ERROR_set_pose (marker_name : string).

(** [std::string::empty]. *)
Definition string_empty (s : string) : bool :=
  match s with EmptyString => true | String _ _ => false end.

Section Markers.

(** [geometry_msgs::Pose]. *)
Variable Pose : Type.

(** The requests made to [m_im_server], an
    [interactive_markers::InteractiveMarkerServer]. *)
Inductive ServerCall : Type :=
| Server_clear
| Server_insert (int_marker : IM.InteractiveMarker)
| Server_setPose (marker_name : string) (tip_pose : Pose) (frame_id : string)
| Server_applyChanges.

(** The fields of [IKCommandInteractiveMarker] the marker code reads and
    writes, with the requests sent to the server, the log and the signals
    emitted so far (oldest first). *)
Record IKCommandInteractiveMarker : Type := {
  m_active_group_name : string;
  m_int_marker_names : list string;
  m_im_server : list ServerCall;
  m_rosout : list MarkerLog;
  m_emitted : list string
}.

Definition ros_marker_log (e : MarkerLog) (s : IKCommandInteractiveMarker)
  : IKCommandInteractiveMarker :=
  {| m_active_group_name := m_active_group_name s;
     m_int_marker_names := m_int_marker_names s;
     m_im_server := m_im_server s;
     m_rosout := m_rosout s ++ [e];
     m_emitted := m_emitted s |}.

Definition server_call (c : ServerCall) (s : IKCommandInteractiveMarker)
  : IKCommandInteractiveMarker :=
  {| m_active_group_name := m_active_group_name s;
     m_int_marker_names := m_int_marker_names s;
     m_im_server := m_im_server s ++ [c];
     m_rosout := m_rosout s;
     m_emitted := m_emitted s |}.

Definition set_int_marker_names (names : list string)
    (s : IKCommandInteractiveMarker) : IKCommandInteractiveMarker :=
  {| m_active_group_name := m_active_group_name s;
     m_int_marker_names := names;
     m_im_server := m_im_server s;
     m_rosout := m_rosout s;
     m_emitted := m_emitted s |}.

Definition set_active_group_name (group_name : string)
    (s : IKCommandInteractiveMarker) : IKCommandInteractiveMarker :=
  {| m_active_group_name := group_name;
     m_int_marker_names := m_int_marker_names s;
     m_im_server := m_im_server s;
     m_rosout := m_rosout s;
     m_emitted := m_emitted s |}.

(** [Q_EMIT updateActiveJointGroup(group_name)]. *)
Definition emit_updateActiveJointGroup (group_name : string)
    (s : IKCommandInteractiveMarker) : IKCommandInteractiveMarker :=
  {| m_active_group_name := m_active_group_name s;
     m_int_marker_names := m_int_marker_names s;
     m_im_server := m_im_server s;
     m_rosout := m_rosout s;
     m_emitted := m_emitted s ++ [group_name] |}.

(** [GetTipLinks] of utils.h, not under src/, applied to the joint group:
    the names of its tip links, in the order the loop visits them. *)
Variable GetTipLinks : JointModelGroup -> list string.

(** [robot_model->getModelFrame()]. *)
Variable getModelFrame : RobotModel -> string.

(** [robot_state->getGlobalLinkTransform(tip_link_name)] converted by
    [tf::poseEigenToMsg]. *)
Variable getGlobalLinkTransform : RobotState -> string -> Pose.

(** The answer of [m_im_server.setPose(marker_name, ...)], which depends on
    the requests the server has received before. *)
Variable server_setPose : list ServerCall -> string -> bool.

(** One iteration of the loop of lines 169-244. *)
Definition add_tip_marker (robot_model : RobotModel)
    (s : IKCommandInteractiveMarker) (tip_link_name : string)
  : IKCommandInteractiveMarker :=
  let s := ros_marker_log (INFO_adding_marker tip_link_name) s in
  let tip_marker := tip_marker (getModelFrame robot_model) tip_link_name in
  let s := server_call (Server_insert tip_marker) s in
  set_int_marker_names (m_int_marker_names s ++ [IM.name tip_marker]) s.

(** [reinitInteractiveMarkers], with [m_model->getRobotModel()] passed in;
    [None] is the null pointer, so that [have_robot] is the case [Some]. *)
Definition reinitInteractiveMarkers (robot_model : option RobotModel)
    (s : IKCommandInteractiveMarker) : IKCommandInteractiveMarker :=
  let s := ros_marker_log INFO_setup_markers s in
  let s := ros_marker_log INFO_remove_markers s in
  let s := server_call Server_clear s in
  let s := set_int_marker_names [] s in
  let have_active_group := negb (string_empty (m_active_group_name s)) in
  match robot_model with
  | Some rm =>
    if negb have_active_group
    then server_call Server_applyChanges (ros_marker_log WARN_no_active_group s)
    else
      match getJointModelGroup rm (m_active_group_name s) with
      | None =>
        server_call Server_applyChanges
          (ros_marker_log (ERROR_retrieve_joint_group (m_active_group_name s)) s)
      | Some jg =>
        server_call Server_applyChanges
          (foldl (add_tip_marker rm) s (GetTipLinks jg))
      end
  | None =>
    let s := ros_marker_log WARN_no_robot_model s in
    let s := if negb have_active_group
             then ros_marker_log WARN_no_active_group s else s in
    server_call Server_applyChanges s
  end.

(** One iteration of the loop of lines 254-269; [None] when the null robot
    model is dereferenced for its frame. *)
Definition pose_marker (robot_model : option RobotModel) (st : RobotState)
    (acc : option IKCommandInteractiveMarker) (marker_name : string)
  : option IKCommandInteractiveMarker :=
  match acc with
  | None => None
  | Some s =>
    let tip_link_name := tipNameFromMarkerName marker_name in
    let tip_pose := getGlobalLinkTransform st tip_link_name in
    match robot_model with
    | None => None
    | Some rm =>
      let frame_id := getModelFrame rm in
      let ok := server_setPose (m_im_server s) marker_name in
      let s := server_call (Server_setPose marker_name tip_pose frame_id) s in
      Some (if negb ok then ros_marker_log (ERROR_set_pose marker_name) s else s)
    end
  end.

Definition updateInteractiveMarkers (robot_model : option RobotModel)
    (st : RobotState) (s : IKCommandInteractiveMarker)
  : option IKCommandInteractiveMarker :=
  server_call Server_applyChanges
    <$> foldl (pose_marker robot_model st) (Some s) (m_int_marker_names s).

Definition setActiveJointGroup (robot_model : option RobotModel)
    (group_name : string) (s : IKCommandInteractiveMarker)
  : IKCommandInteractiveMarker :=
  if negb (String.eqb group_name (m_active_group_name s))
  then
    let s := reinitInteractiveMarkers robot_model s in
    let s := set_active_group_name group_name s in
    emit_updateActiveJointGroup group_name s
  else s.

Definition updateRobotModel (robot_model : option RobotModel)
    (s : IKCommandInteractiveMarker) : IKCommandInteractiveMarker :=
  reinitInteractiveMarkers robot_model s.

Definition updateRobotState (robot_model : option RobotModel)
    (st : RobotState) (s : IKCommandInteractiveMarker)
  : option IKCommandInteractiveMarker :=
  updateInteractiveMarkers robot_model st s.

(** The tip links markers are made for, given the robot model and the
    active group name: none without a robot, without a group name or for
    a name the robot has no group for. *)
Definition group_tip_links (robot_model : option RobotModel)
    (group_name : string) : list string :=
  match robot_model with
  | Some rm =>
    if string_empty group_name then []
    else match getJointModelGroup rm group_name with
         | Some jg => GetTipLinks jg
         | None => []
         end
  | None => []
  end.

Definition model_frame_of (robot_model : option RobotModel) : string :=
  match robot_model with
  | Some rm => getModelFrame rm
  | None => ""
  end.

(** The names of the markers a sequence of requests leaves the server
    with: [clear] drops them all, [insert] adds one. *)
Definition inserted_names (calls : list ServerCall) : list string :=
  foldl (fun names c =>
           match c with
           | Server_clear => []
           | Server_insert m => names ++ [IM.name m]
           | Server_setPose _ _ _ | Server_applyChanges => names
           end) [] calls.

(** The recorded marker names are the names of the markers the server was
    asked to hold. *)
Definition markers_in_sync (s : IKCommandInteractiveMarker) : Prop :=
  m_int_marker_names s = inserted_names (m_im_server s).

End Markers.

Arguments Server_clear {Pose}.
Arguments Server_insert {Pose} _.
Arguments Server_setPose {Pose} _ _ _.
Arguments Server_applyChanges {Pose}.
Arguments m_active_group_name {Pose} _.
Arguments m_int_marker_names {Pose} _.
Arguments m_im_server {Pose} _.
Arguments m_rosout {Pose} _.
Arguments m_emitted {Pose} _.
Arguments ros_marker_log {Pose} _ _.
Arguments server_call {Pose} _ _.
Arguments set_int_marker_names {Pose} _ _.
Arguments set_active_group_name {Pose} _ _.
Arguments emit_updateActiveJointGroup {Pose} _ _.
Arguments add_tip_marker {Pose} _ _ _ _.
Arguments reinitInteractiveMarkers {Pose} _ _ _ _.
Arguments pose_marker {Pose} _ _ _ _ _ _ _.
Arguments updateInteractiveMarkers {Pose} _ _ _ _ _ _.
Arguments setActiveJointGroup {Pose} _ _ _ _ _.
Arguments updateRobotModel {Pose} _ _ _ _.
Arguments updateRobotState {Pose} _ _ _ _ _ _.
Arguments inserted_names {Pose} _.
Arguments markers_in_sync {Pose} _.

(** ** The command panel (move_group_command_panel.cpp)

    Colours are the [float] literals read as exact decimals. *)

Module Panel.

(** [boost::tribool], the type of [m_model->robotStateValidity()]. *)
Inductive tribool : Set := tribool_false | tribool_true | indeterminate.

(** [if (valid)]: the conversion to [bool] holds for [true] only. *)
Definition tribool_to_bool (t : tribool) : bool :=
  match t with tribool_true => true | tribool_false | indeterminate => false end.

(** [!valid]. *)
Definition tribool_not (t : tribool) : tribool :=
  match t with
  | tribool_true => tribool_false
  | tribool_false => tribool_true
  | indeterminate => indeterminate
  end.

(** [std_msgs::ColorRGBA]. *)
Record ColorRGBA : Set := { r : Qc; g : Qc; b : Qc; a : Qc }.

(** A C++ [int] after an arithmetic step: two's complement wrap-around to
    32 bits. *)
Definition int_wrap (z : Z) : Z := ((z + 2 ^ 31) mod 2 ^ 32 - 2 ^ 31)%Z.

Inductive PanelLog : Set :=
| WARN_robot_not_loaded
| WARN_uninitialized_robot (vind : nat).

Section Visualization.

(** The fields of [visualization_msgs::Marker] that
    [updateRobotVisualization] leaves as [getRobotMarkers] filled them. *)
Variable MarkerBody : Type.

Record Marker : Type := {
  body : MarkerBody;
  mesh_use_embedded_materials : bool;
  color : ColorRGBA;
  ns : string;
  id : Z
}.

(** The colour of lines 389-407 for a validity. *)
Definition validity_color (valid : tribool) : ColorRGBA :=
  let r_base := Q2Qc (4 # 10) in
  let g_base := Q2Qc (4 # 10) in
  let b_base := Q2Qc (4 # 10) in
  let '(r_base, g_base) :=
    if tribool_to_bool valid then (r_base, Q2Qc 1)
    else if tribool_to_bool (tribool_not valid) then (Q2Qc 1, g_base)
    else (Q2Qc 1, Q2Qc 1) in
  {| r := r_base; g := g_base; b := b_base; a := Q2Qc (8 # 10) |}.

(** The body of the loop of lines 386-410 for one marker and the current
    value of [id]. *)
Definition paint_marker (valid : tribool) (ns_ : string) (id_ : Z)
    (marker : Marker) : Marker :=
  {| body := body marker;
     mesh_use_embedded_materials := false;
     color := validity_color valid;
     ns := ns_;
     id := id_ |}.

(** The loop of lines 385-410: the counter and the markers rewritten so
    far. *)
Definition paint_markers (valid : tribool) (ns_ : string)
    (markers : list Marker) : Z * list Marker :=
  foldl (fun '(id_, out) marker =>
           (int_wrap (id_ + 1), out ++ [paint_marker valid ns_ id_ marker]))
        (0%Z, []) markers.

(** [updateRobotVisualization]: what is published on [m_marker_pub], if
    anything, and what is logged.  [robot_markers] is the array
    [robot_state->getRobotMarkers] fills in. *)
Definition updateRobotVisualization (isRobotLoaded : bool)
    (robot_name : string) (robot_markers : list Marker) (valid : tribool)
  : option (list Marker) * list PanelLog :=
  if negb isRobotLoaded then (None, [WARN_robot_not_loaded]%list)
  else
    let ns_ := (robot_name ++ "_phantom")%string in
    (Some (snd (paint_markers valid ns_ robot_markers)), []).

End Visualization.

Arguments body {MarkerBody} _.
Arguments mesh_use_embedded_materials {MarkerBody} _.
Arguments color {MarkerBody} _.
Arguments ns {MarkerBody} _.
Arguments id {MarkerBody} _.
Arguments paint_marker {MarkerBody} _ _ _ _.
Arguments paint_markers {MarkerBody} _ _ _.
Arguments updateRobotVisualization {MarkerBody} _ _ _ _.


End Panel.

(** ** Markers and panel of the demo robot *)

#[global] Instance string_eq_decision : EqDecision string := String.string_dec.

Module DemoMarkers.

(** The arm ends in two tip links; poses are tagged by the link they
    belong to. *)
Definition tip_links (_ : JointModelGroup) : list string :=
  ["wrist_control_link"; "gripper"]%string.

Definition model_frame (_ : RobotModel) : string := "base_link".

Definition link_pose (_ : RobotState) (link_name : string) : string := link_name.

(** A server that knows the markers inserted since the last clear. *)
Definition server (calls : list (ServerCall string)) (marker_name : string)
  : bool :=
  bool_decide (marker_name ∈ inserted_names calls).

(** The object as constructed: no group, no markers. *)
Definition start : IKCommandInteractiveMarker string :=
  {| m_active_group_name := "";
     m_int_marker_names := [];
     m_im_server := [];
     m_rosout := [];
     m_emitted := [] |}.

(** The object once "arm" is active and the markers are rebuilt. *)
Definition rebuilt : IKCommandInteractiveMarker string :=
  reinitInteractiveMarkers tip_links model_frame (Some Demo.robot)
    (set_active_group_name "arm" start).

Definition robot_markers : list (Panel.Marker string) :=
  (fun link =>
     {| Panel.body := link;
        Panel.mesh_use_embedded_materials := true;
        Panel.color := {| Panel.r := 0; Panel.g := 0; Panel.b := 0; Panel.a := 1 |};
        Panel.ns := "";
        Panel.id := 7%Z |})
  <$> ["base"; "wrist_control_link"; "gripper"]%string.


End DemoMarkers.

(** ** Arithmetic of the normalisation *)


(** Closing goals about the concrete demo robot by evaluation. *)
Ltac demo_wf :=
  repeat split;
  [ apply (bool_decide_unpack _); vm_compute; exact I
  | repeat constructor ].


Section Arithmetic.





Lemma of_int_0 : of_int 0 = 0.
Proof. apply Qc_is_canon. reflexivity. Qed.









(** The first assignment to [npos] moves the solution by whole turns
    toward the seed. *)
Lemma npos_hops_eq seed_pos spos :
  npos_hops seed_pos spos
  = spos + of_int (twopi_hops seed_pos spos) * (two * M_PI)
           * copysign1 (vdiff seed_pos spos).
Proof. unfold npos_hops. ring. Qed.



(** With no whole turn between seed and solution the first assignment
    leaves [npos] at the solved value; the extra hop is still decided by
    the distance test. *)
Lemma npos_hops_zero seed_pos spos :
  twopi_hops seed_pos spos = 0%Z -> npos_hops seed_pos spos = spos.
Proof. intros H. rewrite npos_hops_eq, H, of_int_0. ring. Qed.

Lemma npos_zero_hops seed_pos spos :
  twopi_hops seed_pos spos = 0%Z ->
  npos seed_pos spos
  = if Qclt_le_dec M_PI (fabs (spos - seed_pos))
    then spos + two * M_PI * copysign1 (vdiff seed_pos spos)
    else spos.
Proof. intros H. unfold npos. cbv zeta. rewrite npos_hops_zero by exact H. reflexivity. Qed.

Lemma twopi_hops_same spos : twopi_hops spos spos = 0%Z.
Proof.
  unfold twopi_hops, vdiff.
  replace (spos - spos) with 0 by ring.
  replace (0 / (two * M_PI)) with 0 by (unfold Qcdiv; ring).
  reflexivity.
Qed.

Lemma npos_same spos : npos spos spos = spos.
Proof.
  rewrite npos_zero_hops by apply twopi_hops_same.
  replace (spos - spos) with 0 by ring.
  reflexivity.
Qed.



End Arithmetic.

(** ** The loop *)

Section Loop.

Variable rm : RobotModel.
Variable jg : JointModelGroup.
Variable seed : list Qc.

Local Abbreviation vidx_of gvidx := (getVariableIndexList jg !!! gvidx) (only parsing).
Local Abbreviation joint_of gvidx :=
  (getJointOfVariable rm (getVariableIndexList jg !!! gvidx)) (only parsing).

Lemma eligible_iff j :
  eligible j = true
  <-> getType j = REVOLUTE /\ position_bounded_ (getVariableBounds_0 j) = true.
Proof.
  unfold eligible. rewrite negb_true_iff, orb_false_iff, !negb_false_iff.
  rewrite bool_decide_eq_true. reflexivity.
Qed.

Lemma normalize_variable_skip w gvidx :
  eligible (joint_of gvidx) = false -> normalize_variable rm jg seed w gvidx = w.
Proof.
  unfold eligible, normalize_variable.
  rewrite negb_false_iff. intros ->. reflexivity.
Qed.

(** The state after one iteration, for a variable index inside the
    state. *)
Lemma normalize_variable_robot_state w gvidx :
  (vidx_of gvidx < length (robot_state w))%nat ->
  robot_state (normalize_variable rm jg seed w gvidx)
  = <[vidx_of gvidx :=
        normalized_value (joint_of gvidx) (seed !!! gvidx)
                         (robot_state w !!! vidx_of gvidx)]> (robot_state w).
Proof.
  intros Hlt. unfold normalized_value.
  destruct (eligible (joint_of gvidx)) eqn:He.
  - unfold normalize_variable.
    unfold eligible in He. rewrite negb_true_iff in He. rewrite He.
    cbv zeta. unfold satisfiesBounds, getVariablePosition. cbn [setVariablePosition robot_state].
    rewrite list_lookup_total_insert_eq by exact Hlt.
    destruct (within_bounds _ _); cbn [negb robot_state setVariablePosition ros_log].
    + reflexivity.
    + apply list_insert_insert_eq.
  - rewrite normalize_variable_skip by exact He.
    symmetry. apply list_insert_id. apply list_lookup_lookup_total_lt, Hlt.
Qed.

(** A variable index outside the state is never written. *)
Lemma normalize_variable_out_of_range w gvidx :
  (length (robot_state w) <= vidx_of gvidx)%nat ->
  robot_state (normalize_variable rm jg seed w gvidx) = robot_state w.
Proof.
  intros Hge. unfold normalize_variable.
  destruct (_ || _); [reflexivity|]. cbv zeta.
  destruct (negb _); cbn [robot_state setVariablePosition ros_log];
    rewrite ?list_insert_ge; auto; rewrite ?length_insert; auto.
Qed.

Lemma normalize_variable_length w gvidx :
  length (robot_state (normalize_variable rm jg seed w gvidx))
  = length (robot_state w).
Proof.
  destruct (Nat.lt_ge_cases (vidx_of gvidx) (length (robot_state w))).
  - rewrite normalize_variable_robot_state by assumption. apply length_insert.
  - rewrite normalize_variable_out_of_range by assumption. reflexivity.
Qed.

(** Only the variable of the iteration can change. *)
Lemma normalize_variable_other w gvidx v :
  v <> vidx_of gvidx ->
  robot_state (normalize_variable rm jg seed w gvidx) !! v = robot_state w !! v.
Proof.
  intros Hne.
  destruct (Nat.lt_ge_cases (vidx_of gvidx) (length (robot_state w))).
  - rewrite normalize_variable_robot_state by assumption.
    apply list_lookup_insert_ne. congruence.
  - rewrite normalize_variable_out_of_range by assumption. reflexivity.
Qed.

(** The log grows by one warning exactly when an eligible variable's
    candidate fails the bounds check. *)
Lemma normalize_variable_rosout w gvidx :
  (vidx_of gvidx < length (robot_state w))%nat ->
  rosout (normalize_variable rm jg seed w gvidx)
  = rosout w ++
    (if eligible (joint_of gvidx)
        && negb (within_bounds (getVariableBounds_0 (joint_of gvidx))
                   (npos (seed !!! gvidx) (robot_state w !!! vidx_of gvidx)))
     then [WARN_out_of_bounds gvidx] else []).
Proof.
  intros Hlt. destruct (eligible (joint_of gvidx)) eqn:He.
  - unfold normalize_variable.
    unfold eligible in He. rewrite negb_true_iff in He. rewrite He.
    cbv zeta. unfold satisfiesBounds, getVariablePosition.
    cbn [setVariablePosition robot_state].
    rewrite list_lookup_total_insert_eq by exact Hlt.
    destruct (within_bounds _ _);
      cbn [negb andb rosout setVariablePosition ros_log].
    + symmetry. apply app_nil_r.
    + reflexivity.
  - rewrite normalize_variable_skip by exact He. symmetry. apply app_nil_r.
Qed.

Lemma normalize_variable_rosout_grows w gvidx :
  exists ws, rosout (normalize_variable rm jg seed w gvidx)
             = rosout w ++ (WARN_out_of_bounds <$> ws).
Proof.
  unfold normalize_variable. destruct (_ || _).
  - exists []%list. symmetry. apply app_nil_r.
  - cbv zeta. destruct (negb _); cbn [rosout setVariablePosition ros_log].
    + exists [gvidx]%list. reflexivity.
    + exists []. symmetry. apply app_nil_r.
Qed.

Lemma normalize_S n w :
  foldl (normalize_variable rm jg seed) w (seq 0 (S n))
  = normalize_variable rm jg seed
      (foldl (normalize_variable rm jg seed) w (seq 0 n)) n.
Proof. rewrite seq_S, foldl_app. reflexivity. Qed.

(** Loop invariants: what holds of the solved state and is kept by every
    iteration holds of the result. *)
Lemma normalize_invariant (P : World -> Prop) w :
  P w ->
  (forall w' gvidx, (gvidx < length seed)%nat -> P w' ->
     P (normalize_variable rm jg seed w' gvidx)) ->
  P (normalize rm jg seed w).
Proof.
  intros H0 Hstep. unfold normalize.
  assert (Hn : forall n, (n <= length seed)%nat ->
             P (foldl (normalize_variable rm jg seed) w (seq 0 n))).
  { induction n as [|n IH]; intros Hle; [exact H0|].
    rewrite normalize_S. apply Hstep; [lia|]. apply IH. lia. }
  apply Hn. reflexivity.
Qed.


Lemma normalize_rosout_grows w :
  exists ws, rosout (normalize rm jg seed w)
             = rosout w ++ (WARN_out_of_bounds <$> ws).
Proof.
  apply (normalize_invariant
           (fun w' => exists ws, rosout w' = rosout w ++ (WARN_out_of_bounds <$> ws))).
  - exists []. symmetry. apply app_nil_r.
  - intros w' g _ [ws IH].
    destruct (normalize_variable_rosout_grows w' g) as [ws' H].
    exists (ws ++ ws'). rewrite H, IH, fmap_app, app_assoc. reflexivity.
Qed.

Lemma wf_group_vidx_lt st gvidx :
  wf_group jg seed st -> (gvidx < length seed)%nat ->
  (vidx_of gvidx < length st)%nat.
Proof.
  intros (_ & Hlen & Hall) Hg.
  rewrite Forall_lookup in Hall. apply (Hall gvidx).
  apply list_lookup_lookup_total_lt. lia.
Qed.

Lemma wf_group_vidx_inj st g g' :
  wf_group jg seed st -> (g < length seed)%nat -> (g' < length seed)%nat ->
  vidx_of g = vidx_of g' -> g = g'.
Proof.
  intros (Hnd & Hlen & _) Hg Hg' Heq.
  apply (NoDup_lookup _ g g' (vidx_of g) Hnd).
  - apply list_lookup_lookup_total_lt. lia.
  - rewrite Heq. apply list_lookup_lookup_total_lt. lia.
Qed.

(** The loop after its first [n] iterations: every group variable visited
    so far holds its normalised value, a warning is logged for every
    visited variable whose candidate failed the check, and the other
    variables hold the solved values. *)
Lemma normalize_prefix n w :
  wf_group jg seed (robot_state w) -> (n <= length seed)%nat ->
  let wn := foldl (normalize_variable rm jg seed) w (seq 0 n) in
  length (robot_state wn) = length (robot_state w)
  /\ (forall g, (g < n)%nat ->
        robot_state wn !!! vidx_of g
        = normalized_value (joint_of g) (seed !!! g)
                           (robot_state w !!! vidx_of g))
  /\ (forall g, (g < n)%nat -> eligible (joint_of g) = true ->
        within_bounds (getVariableBounds_0 (joint_of g))
          (npos (seed !!! g) (robot_state w !!! vidx_of g)) = false ->
        WARN_out_of_bounds g ∈ rosout wn)
  /\ (forall v, (forall g, (g < n)%nat -> vidx_of g <> v) ->
        robot_state wn !! v = robot_state w !! v).
Proof.
  intros Hwf. induction n as [|n IH]; intros Hle; cbv zeta.
  - cbn. repeat split; intros; try lia; reflexivity.
  - rewrite normalize_S.
    destruct IH as (Hlen & Hvis & Hlog & Hrest); [lia|].
    set (wn := foldl (normalize_variable rm jg seed) w (seq 0 n)) in *.
    assert (Hin : (vidx_of n < length (robot_state wn))%nat).
    { rewrite Hlen. apply wf_group_vidx_lt; [exact Hwf|lia]. }
    assert (Hsame : robot_state wn !!! vidx_of n = robot_state w !!! vidx_of n).
    { rewrite (list_lookup_total_alt (robot_state wn)), Hrest.
      - symmetry. apply list_lookup_total_alt.
      - intros g Hg Heq. apply (wf_group_vidx_inj _ g n Hwf) in Heq; lia. }
    repeat split.
    + rewrite normalize_variable_length. exact Hlen.
    + intros g Hg. destruct (decide (g = n)) as [->|Hne].
      * rewrite normalize_variable_robot_state by exact Hin.
        rewrite list_lookup_total_insert_eq by exact Hin.
        rewrite Hsame. reflexivity.
      * rewrite (list_lookup_total_alt (robot_state _)), normalize_variable_other.
        -- rewrite <- (list_lookup_total_alt (robot_state _)). apply Hvis. lia.
        -- intros Heq. apply (wf_group_vidx_inj _ g n Hwf) in Heq; lia.
    + intros g Hg He Hout. rewrite normalize_variable_rosout by exact Hin.
      apply elem_of_app. destruct (decide (g = n)) as [->|Hne].
      * right. rewrite He, Hsame, Hout. apply list_elem_of_singleton. reflexivity.
      * left. apply Hlog; [lia|exact He|exact Hout].
    + intros v Hv. rewrite normalize_variable_other.
      * apply Hrest. intros g Hg. apply Hv. lia.
      * intros ->. apply (Hv n); [lia|reflexivity].
Qed.

(** The result of the loop, variable by variable. *)
Lemma normalize_group_variable w gvidx :
  wf_group jg seed (robot_state w) -> (gvidx < length seed)%nat ->
  robot_state (normalize rm jg seed w) !!! vidx_of gvidx
  = normalized_value (joint_of gvidx) (seed !!! gvidx)
                     (robot_state w !!! vidx_of gvidx).
Proof.
  intros Hwf Hg.
  destruct (normalize_prefix (length seed) w Hwf) as (_ & H & _); [lia|].
  apply H. exact Hg.
Qed.

Lemma normalize_group_warning w gvidx :
  wf_group jg seed (robot_state w) -> (gvidx < length seed)%nat ->
  eligible (joint_of gvidx) = true ->
  within_bounds (getVariableBounds_0 (joint_of gvidx))
    (npos (seed !!! gvidx) (robot_state w !!! vidx_of gvidx)) = false ->
  WARN_out_of_bounds gvidx ∈ rosout (normalize rm jg seed w).
Proof.
  intros Hwf Hg.
  destruct (normalize_prefix (length seed) w Hwf) as (_ & _ & H & _); [lia|].
  apply H. exact Hg.
Qed.

(** A variable whose joint is not eligible is never written, wherever it
    sits in the state and however often the group lists it. *)
Lemma normalize_ineligible w v :
  eligible (getJointOfVariable rm v) = false ->
  robot_state (normalize rm jg seed w) !! v = robot_state w !! v.
Proof.
  intros He.
  apply (normalize_invariant
           (fun w' => robot_state w' !! v = robot_state w !! v)); [reflexivity|].
  intros w' g _ IH. rewrite <- IH.
  destruct (decide (v = vidx_of g)) as [->|Hne].
  - rewrite normalize_variable_skip by exact He. reflexivity.
  - apply normalize_variable_other. exact Hne.
Qed.

End Loop.

(** ** Marker names *)

Section MarkerNames.

Local Open Scope string_scope.

Lemma rfind_last_controls t :
  StdString.rfind_last (t ++ "_controls") "_control" = Some (String.length t).
Proof.
  induction t as [|c t IH]; [reflexivity|].
  cbn [append StdString.rfind_last String.length]. rewrite IH. reflexivity.
Qed.

Lemma length_append_string (t u : string) :
  String.length (t ++ u) = (String.length t + String.length u)%nat.
Proof. induction t as [|c t IH]; cbn; [reflexivity|]. rewrite IH. reflexivity. Qed.

Lemma substring_0_append (t u : string) :
  substring 0 (String.length t) (t ++ u) = t.
Proof.
  induction t as [|c t IH]; cbn.
  - destruct u; reflexivity.
  - rewrite IH. reflexivity.
Qed.

End MarkerNames.

(** ** The properties of the normaliser *)




Lemma normalized_value_within rm st vidx seed_pos :
  state_within_bounds rm st -> (vidx < length st)%nat ->
  position_bounded_ (getVariableBounds_0 (getJointOfVariable rm vidx)) = true ->
  within_bounds (getVariableBounds_0 (getJointOfVariable rm vidx))
    (normalized_value (getJointOfVariable rm vidx) seed_pos (st !!! vidx)) = true.
Proof.
  intros Hst Hlt Hb. unfold normalized_value.
  assert (Hs : within_bounds (getVariableBounds_0 (getJointOfVariable rm vidx))
                 (st !!! vidx) = true).
  { apply (Hst vidx); [|exact Hb]. apply list_lookup_lookup_total_lt, Hlt. }
  destruct (eligible _); [|exact Hs].
  destruct (within_bounds _ (npos _ _)) eqn:Hn; [exact Hn|exact Hs].
Qed.

(** C4, bound safety: when every bounded variable of the IK solution lies
    in its bound interval, so does every bounded variable of the normalised
    state. *)
Theorem C4_bound_safety rm jg seed w :
  state_within_bounds rm (robot_state w) ->
  state_within_bounds rm (robot_state (normalize rm jg seed w)).
Proof.
  intros H0.
  apply (normalize_invariant rm jg seed
           (fun w' => state_within_bounds rm (robot_state w'))); [exact H0|].
  intros w' g _ IH.
  set (vidx := getVariableIndexList jg !!! g).
  destruct (Nat.lt_ge_cases vidx (length (robot_state w'))) as [Hlt|Hge].
  - rewrite normalize_variable_robot_state by exact Hlt. fold vidx.
    intros v x Hv Hb. destruct (decide (v = vidx)) as [->|Hne].
    + rewrite list_lookup_insert_eq in Hv by exact Hlt.
      injection Hv as <-. apply normalized_value_within; assumption.
    + rewrite list_lookup_insert_ne in Hv by congruence.
      apply (IH v); assumption.
  - rewrite normalize_variable_out_of_range by exact Hge. exact IH.
Qed.

(** C5, bound violation: when the candidate of a REVOLUTE, bounded variable
    fails the bounds check, that variable ends at its solved value, every
    other group variable still ends at its own normalised value, and the
    only trace is a warning in the log, which receives nothing but
    warnings. *)
Theorem C5_bound_violation_reverts rm jg seed w gvidx :
  let vidx_of := fun g => getVariableIndexList jg !!! g in
  let joint_of := fun g => getJointOfVariable rm (vidx_of g) in
  let spos_of := fun g => robot_state w !!! vidx_of g in
  let out := normalize rm jg seed w in
  wf_group jg seed (robot_state w) ->
  (gvidx < length seed)%nat ->
  getType (joint_of gvidx) = REVOLUTE ->
  position_bounded_ (getVariableBounds_0 (joint_of gvidx)) = true ->
  within_bounds (getVariableBounds_0 (joint_of gvidx))
    (npos (seed !!! gvidx) (spos_of gvidx)) = false ->
  robot_state out !!! vidx_of gvidx = spos_of gvidx
  /\ (forall g, (g < length seed)%nat -> g <> gvidx ->
        robot_state out !!! vidx_of g
        = normalized_value (joint_of g) (seed !!! g) (spos_of g))
  /\ WARN_out_of_bounds gvidx ∈ rosout out
  /\ exists ws, rosout out = rosout w ++ (WARN_out_of_bounds <$> ws).
Proof.
  cbv zeta. intros Hwf Hg Hty Hb Hviol.
  assert (He : eligible (getJointOfVariable rm (getVariableIndexList jg !!! gvidx))
               = true)
    by (apply eligible_iff; split; assumption).
  repeat split.
  - rewrite normalize_group_variable by assumption.
    unfold normalized_value. rewrite He, Hviol. reflexivity.
  - intros g Hlt _. apply normalize_group_variable; assumption.
  - apply normalize_group_warning; assumption.
  - apply normalize_rosout_grows.
Qed.

(** C6, passthrough: a variable whose joint is not REVOLUTE (PRISMATIC,
    PLANAR, FLOATING, FIXED, or of unknown type), or is REVOLUTE without
    position bounds, holds after the loop exactly the value of the IK
    solution. *)
Theorem C6_ineligible_passthrough rm jg seed w vidx :
  let j := getJointOfVariable rm vidx in
  getType j <> REVOLUTE \/ position_bounded_ (getVariableBounds_0 j) = false ->
  robot_state (normalize rm jg seed w) !! vidx = robot_state w !! vidx.
Proof.
  cbv zeta. intros Hj. apply normalize_ineligible.
  destruct (eligible _) eqn:He; [|reflexivity].
  apply eligible_iff in He as [Hty Hb].
  destruct Hj as [Hn|Hu]; [contradiction|congruence].
Qed.

Lemma normalized_value_same j spos : normalized_value j spos spos = spos.
Proof.
  unfold normalized_value. rewrite npos_same.
  destruct (eligible j); [destruct (within_bounds _ _)|]; reflexivity.
Qed.

(** C7, idempotence: when every seed entry equals the solved value of its
    variable, the loop leaves the robot state as the solver returned it. *)
Theorem C7_idempotence rm jg seed w :
  (forall gvidx, (gvidx < length seed)%nat ->
     seed !!! gvidx = robot_state w !!! (getVariableIndexList jg !!! gvidx)) ->
  robot_state (normalize rm jg seed w) = robot_state w.
Proof.
  intros Hsame.
  apply (normalize_invariant rm jg seed
           (fun w' => robot_state w' = robot_state w)); [reflexivity|].
  intros w' g Hg IH.
  set (vidx := getVariableIndexList jg !!! g).
  destruct (Nat.lt_ge_cases vidx (length (robot_state w'))) as [Hlt|Hge].
  - rewrite normalize_variable_robot_state by exact Hlt. fold vidx.
    rewrite IH, (Hsame g Hg). fold vidx. rewrite normalized_value_same.
    apply list_insert_id, list_lookup_lookup_total_lt. rewrite <- IH. exact Hlt.
  - rewrite normalize_variable_out_of_range by exact Hge. exact IH.
Qed.

(** ** The properties of the handler *)

Lemma copyJointGroupPositions_length jg st :
  length (copyJointGroupPositions jg st) = length (getVariableIndexList jg).
Proof. unfold copyJointGroupPositions. apply length_fmap. Qed.

(** C8, solver failure: when the IK solver finds no solution for a pose
    update, the handler returns the world as it found it: the loop is not
    run, the robot state is unchanged and nothing is logged. *)
Theorem C8_solver_failure_no_change {Pose : Type}
    (setFromIK : JointModelGroup -> Pose -> RobotState -> option RobotState)
    (rm : RobotModel) (m_active_group_name : string) (jg : JointModelGroup)
    (msg : InteractiveMarkerFeedback Pose) (w : World) :
  event_type msg = POSE_UPDATE ->
  getJointModelGroup rm m_active_group_name = Some jg ->
  setFromIK jg (pose msg) (robot_state w) = None ->
  processInteractiveMarkerFeedback setFromIK rm m_active_group_name msg w = w.
Proof.
  intros Hev Hjg Hik. unfold processInteractiveMarkerFeedback.
  rewrite Hev, Hjg, Hik. reflexivity.
Qed.


(** C10, marker-name round trip: the tip-link name recovered from the
    marker name built for a tip link is that tip link's name, whatever the
    name contains. *)
Theorem C10_marker_name_round_trip (tip_name : string) :
  tipNameFromMarkerName (markerNameFromTipName tip_name) = tip_name.
Proof.
  unfold tipNameFromMarkerName, markerNameFromTipName,
    StdString.substr_0, StdString.rfind.
  rewrite rfind_last_controls, length_append_string.
  rewrite N.min_l by lia. rewrite Nat2N.id.
  apply substring_0_append.
Qed.

(** ** The worked scenarios *)

(** The four scenarios of the spec, run through the loop.  Scenario 1:
    the hop count is 0, the candidate -3.0 + 2pi exceeds the bound pi, and
    the output -3.0 is the reverted solved value. *)
Example scenario_1 :
  twopi_hops (Demo.seed !!! 0%nat) (Demo.solved_scenario_1 !!! 1%nat) = 0%Z
  /\ this (npos (Demo.seed !!! 0%nat) (Demo.solved_scenario_1 !!! 1%nat))
     = (462067253937571 # 140737488355328)%Q
  /\ this <$> robot_state (normalize Demo.robot Demo.arm Demo.seed
                             (Demo.world Demo.solved_scenario_1))
     = [(1 # 5)%Q; (-3 # 1)%Q; (1 # 2)%Q; (7 # 1)%Q; (-16 # 5)%Q]
  /\ rosout (normalize Demo.robot Demo.arm Demo.seed
               (Demo.world Demo.solved_scenario_1))
     = [WARN_out_of_bounds 0]%list.
Proof. split_and!; reflexivity. Qed.

(** Scenarios 2 and 3: variable 1 moves to -3.2 + 2pi, about 3.08;
    variable 2 goes back to -3.2 with a warning. *)
Example scenario_2_3 :
  this <$> robot_state (normalize Demo.robot Demo.arm Demo.seed
                          (Demo.world Demo.solved))
  = [(1 # 5)%Q; (2169598781332527 # 703687441776640)%Q; (-16 # 5)%Q;
     (7 # 1)%Q; (-16 # 5)%Q]
  /\ rosout (normalize Demo.robot Demo.arm Demo.seed (Demo.world Demo.solved))
     = [WARN_out_of_bounds 1]%list.
Proof. split; reflexivity. Qed.

(** The handler on the same drag, and on a group the robot lacks. *)
Example drag_arm :
  processInteractiveMarkerFeedback Demo.solver_ok Demo.robot "arm" Demo.drag
    (Demo.world Demo.before)
  = normalize Demo.robot Demo.arm Demo.seed (Demo.world Demo.solved).
Proof. reflexivity. Qed.

Example drag_missing_group :
  processInteractiveMarkerFeedback Demo.solver_ok Demo.robot "leg" Demo.drag
    (Demo.world Demo.before)
  = {| robot_state := Demo.before;
       rosout := [ERROR_no_joint_group "leg"] |}.
Proof. reflexivity. Qed.

Example marker_name_wrist :
  markerNameFromTipName "wrist_control_link" = "wrist_control_link_controls"%string
  /\ tipNameFromMarkerName "wrist_control_link_controls" = "wrist_control_link"%string
  /\ tipNameFromMarkerName "elbow" = "elbow"%string.
Proof. split_and!; reflexivity. Qed.

Lemma demo_state_within_bounds :
  state_within_bounds Demo.robot Demo.solved_in_bounds.
Proof.
  intros v x Hv Hb.
  do 5 (destruct v as [|v]; [injection Hv as <-; first [discriminate Hb | reflexivity]|]).
  discriminate Hv.
Defined.




Lemma C4_witness :
  state_within_bounds Demo.robot
    (robot_state (normalize Demo.robot Demo.arm Demo.seed
                    (Demo.world Demo.solved_in_bounds))).
Proof.
  apply (C4_bound_safety Demo.robot Demo.arm Demo.seed
           (Demo.world Demo.solved_in_bounds)).
  exact demo_state_within_bounds.
Defined.

(** Scenario 3 of the spec: the candidate 3.08 leaves [-1, 1]; variable 2
    goes back to -3.2 and variable 1 is normalised all the same. *)
Lemma C5_witness :
  robot_state (normalize Demo.robot Demo.arm Demo.seed
                 (Demo.world Demo.solved)) !!! 2%nat
  = Demo.solved !!! 2%nat
  /\ (forall g, (g < length Demo.seed)%nat -> g <> 1%nat ->
        robot_state (normalize Demo.robot Demo.arm Demo.seed
                       (Demo.world Demo.solved))
          !!! (getVariableIndexList Demo.arm !!! g)
        = normalized_value
            (Demo.joint (getVariableIndexList Demo.arm !!! g))
            (Demo.seed !!! g)
            (Demo.solved !!! (getVariableIndexList Demo.arm !!! g)))
  /\ WARN_out_of_bounds 1
       ∈ rosout (normalize Demo.robot Demo.arm Demo.seed (Demo.world Demo.solved))
  /\ exists ws,
       rosout (normalize Demo.robot Demo.arm Demo.seed (Demo.world Demo.solved))
       = [] ++ (WARN_out_of_bounds <$> ws).
Proof.
  apply (C5_bound_violation_reverts Demo.robot Demo.arm Demo.seed
           (Demo.world Demo.solved) 1).
  - demo_wf.
  - cbn. lia.
  - reflexivity.
  - reflexivity.
  - reflexivity.
Defined.

Lemma C6_witness :
  robot_state (normalize Demo.robot Demo.arm Demo.seed
                 (Demo.world Demo.solved)) !! 4%nat
  = Demo.solved !! 4%nat.
Proof.
  apply (C6_ineligible_passthrough Demo.robot Demo.arm Demo.seed
           (Demo.world Demo.solved) 4).
  right. reflexivity.
Defined.

(** Scenario 4 of the spec: the solver answers with the seed itself. *)
Lemma C7_witness :
  robot_state (normalize Demo.robot Demo.arm Demo.seed
                 (Demo.world Demo.before))
  = Demo.before.
Proof.
  apply (C7_idempotence Demo.robot Demo.arm Demo.seed (Demo.world Demo.before)).
  intros g Hg.
  do 4 (destruct g as [|g]; [reflexivity|]).
  cbn in Hg. lia.
Defined.

Lemma C8_witness :
  processInteractiveMarkerFeedback Demo.solver_fails Demo.robot "arm"
    Demo.drag (Demo.world Demo.before)
  = Demo.world Demo.before.
Proof.
  apply (C8_solver_failure_no_change Demo.solver_fails Demo.robot "arm"
           Demo.arm Demo.drag (Demo.world Demo.before)); reflexivity.
Defined.



(** * Further properties of the code *)

(** ** The arithmetic of one variable *)










(** ** Loop-level *)

Lemma normalize_frame rm jg seed w v :
  (length seed <= length (getVariableIndexList jg))%nat ->
  v ∉ getVariableIndexList jg ->
  robot_state (normalize rm jg seed w) !! v = robot_state w !! v.
Proof.
  intros Hlen Hv.
  apply (normalize_invariant rm jg seed
           (fun w' => robot_state w' !! v = robot_state w !! v)); [reflexivity|].
  intros w' g Hg IH. rewrite <- IH. apply normalize_variable_other.
  intros ->. apply Hv. apply list_elem_of_lookup_total_2. lia.
Qed.






Lemma normalize_rosout_prefix rm jg seed w n :
  wf_group jg seed (robot_state w) -> (n <= length seed)%nat ->
  rosout (foldl (normalize_variable rm jg seed) w (seq 0 n))
  = rosout w
    ++ (WARN_out_of_bounds
          <$> List.filter (candidate_rejected rm jg seed (robot_state w))
                (seq 0 n)).
Proof.
  intros Hwf. induction n as [|n IH]; intros Hle.
  - cbn. symmetry. apply app_nil_r.
  - rewrite normalize_S.
    destruct (normalize_prefix rm jg seed n w Hwf) as (Hlen & _ & _ & Hrest);
      [lia|].
    set (wn := foldl (normalize_variable rm jg seed) w (seq 0 n)) in *.
    assert (Hin : (getVariableIndexList jg !!! n < length (robot_state wn))%nat).
    { rewrite Hlen. apply (wf_group_vidx_lt jg seed); [exact Hwf|lia]. }
    assert (Hsame : robot_state wn !!! (getVariableIndexList jg !!! n)
                    = robot_state w !!! (getVariableIndexList jg !!! n)).
    { rewrite (list_lookup_total_alt (robot_state wn)), Hrest.
      - symmetry. apply list_lookup_total_alt.
      - intros g Hg Heq.
        apply (wf_group_vidx_inj jg seed _ g n Hwf) in Heq; lia. }
    rewrite normalize_variable_rosout by exact Hin.
    rewrite IH by lia. rewrite Hsame.
    rewrite seq_S, List.filter_app, fmap_app, <- app_assoc. f_equal. f_equal.
    cbn [List.filter Nat.add]. unfold candidate_rejected.
    destruct (_ && _); reflexivity.
Qed.

(** X7, the log of the loop: it receives one warning for each group
    variable whose candidate is rejected, in group order, and nothing
    else. *)
Theorem X7_warnings_exact rm jg seed w :
  wf_group jg seed (robot_state w) ->
  rosout (normalize rm jg seed w)
  = rosout w
    ++ (WARN_out_of_bounds
          <$> List.filter (candidate_rejected rm jg seed (robot_state w))
                (seq 0 (length seed))).
Proof. intros Hwf. apply normalize_rosout_prefix; [exact Hwf|reflexivity]. Qed.




Lemma handler_pose_update {Pose : Type}
    (setFromIK : JointModelGroup -> Pose -> RobotState -> option RobotState)
    rm name jg (msg : InteractiveMarkerFeedback Pose) w solution :
  event_type msg = POSE_UPDATE ->
  getJointModelGroup rm name = Some jg ->
  setFromIK jg (pose msg) (robot_state w) = Some solution ->
  processInteractiveMarkerFeedback setFromIK rm name msg w
  = normalize rm jg (copyJointGroupPositions jg (robot_state w))
      {| robot_state := solution; rosout := rosout w |}.
Proof.
  intros Hev Hjg Hik. unfold processInteractiveMarkerFeedback.
  rewrite Hev, Hjg, Hik. reflexivity.
Qed.


(** X10, frame of a drag: a variable outside the active group holds after
    the event what the IK solver left in it. *)
Theorem X10_drag_frame {Pose : Type}
    (setFromIK : JointModelGroup -> Pose -> RobotState -> option RobotState)
    (rm : RobotModel) (name : string) (jg : JointModelGroup)
    (msg : InteractiveMarkerFeedback Pose) (w : World)
    (solution : RobotState) (v : nat) :
  event_type msg = POSE_UPDATE ->
  getJointModelGroup rm name = Some jg ->
  setFromIK jg (pose msg) (robot_state w) = Some solution ->
  v ∉ getVariableIndexList jg ->
  robot_state (processInteractiveMarkerFeedback setFromIK rm name msg w) !! v
  = solution !! v.
Proof.
  intros Hev Hjg Hik Hv.
  rewrite (handler_pose_update setFromIK rm name jg msg w solution)
    by assumption.
  rewrite normalize_frame; [reflexivity| |exact Hv].
  rewrite copyJointGroupPositions_length. reflexivity.
Qed.



(** ** Marker names beyond the round trip *)

Section MarkerNameProperties.

Local Open Scope string_scope.

Lemma string_prefix_spec (p s : string) :
  String.prefix p s = true <-> exists b, s = p ++ b.
Proof.
  revert s. induction p as [|c p IH]; intros s.
  - split; [intros _; exists s; reflexivity|]. intros _. destruct s; reflexivity.
  - destruct s as [|d s]; cbn [String.prefix].
    + split; [discriminate|]. intros [b Hb]. discriminate Hb.
    + destruct (Ascii.ascii_dec c d) as [->|Hne].
      * rewrite IH. split; intros [b Hb]; exists b.
        -- cbn. rewrite <- Hb. reflexivity.
        -- cbn in Hb. injection Hb as ->. reflexivity.
      * split; [discriminate|]. intros [b Hb]. cbn in Hb.
        injection Hb as -> _. contradiction.
Qed.

Lemma string_prefix_false (p s : string) :
  String.prefix p s = false -> forall b, s <> p ++ b.
Proof.
  intros Hf b Hb.
  assert (String.prefix p s = true) by (apply string_prefix_spec; eauto).
  congruence.
Qed.

(** What [rfind_last] returns: the start of an occurrence after which no
    other occurrence starts, or nothing when there is no occurrence. *)
Lemma rfind_last_spec (pat s : string) :
  match StdString.rfind_last s pat with
  | Some p =>
    exists pre rest, s = pre ++ rest /\ String.length pre = p
      /\ String.prefix pat rest = true
      /\ forall a b, rest = a ++ pat ++ b -> a = ""
  | None => ~ occurs_in pat s
  end.
Proof.
  induction s as [|c s IH]; cbn [StdString.rfind_last].
  - destruct (String.prefix pat "") eqn:Hp.
    + exists "", "". split_and!; try reflexivity; [exact Hp|].
      intros a b Hab. destruct a; [reflexivity|discriminate Hab].
    + intros (a & b & Hab). destruct a as [|d a]; [|discriminate Hab].
      exact (string_prefix_false _ _ Hp b Hab).
  - destruct (StdString.rfind_last s pat) as [p|].
    + destruct IH as (pre & rest & -> & <- & Hp & Hlast).
      exists (String c pre), rest. split_and!; try reflexivity; assumption.
    + destruct (String.prefix pat (String c s)) eqn:Hp.
      * exists "", (String c s). split_and!; try reflexivity; [exact Hp|].
        intros a b Hab. destruct a as [|d a]; [reflexivity|exfalso].
        cbn in Hab. injection Hab as _ Hs. apply IH. exists a, b. exact Hs.
      * intros (a & b & Hab). destruct a as [|d a].
        -- exact (string_prefix_false _ _ Hp b Hab).
        -- cbn in Hab. injection Hab as _ Hs. apply IH. exists a, b. exact Hs.
Qed.

Lemma substr_0_prefix (pre rest : string) :
  StdString.substr_0 (pre ++ rest) (N.of_nat (String.length pre)) = pre.
Proof.
  unfold StdString.substr_0. rewrite length_append_string.
  rewrite N.min_l by lia. rewrite Nat2N.id. apply substring_0_append.
Qed.

Lemma substring_0_all (s : string) : substring 0 (String.length s) s = s.
Proof. induction s as [|c s IH]; cbn; [reflexivity|]. rewrite IH. reflexivity. Qed.

(** X11, no occurrence: a marker name that does not contain "_control"
    (and fits a [size_t]) is returned whole: [rfind] answers [npos] and
    [substr(0, npos)] takes everything. *)
Theorem X11_tip_name_without_control (marker_name : string) :
  ~ occurs_in "_control" marker_name ->
  (N.of_nat (String.length marker_name) <= StdString.npos)%N ->
  tipNameFromMarkerName marker_name = marker_name.
Proof.
  intros Hno Hsize. unfold tipNameFromMarkerName, StdString.rfind.
  pose proof (rfind_last_spec "_control" marker_name) as Hspec.
  destruct (StdString.rfind_last marker_name "_control") as [p|].
  - exfalso. destruct Hspec as (pre & rest & -> & _ & Hp & _).
    apply string_prefix_spec in Hp as [b ->]. apply Hno. exists pre, b. reflexivity.
  - unfold StdString.substr_0. rewrite N.min_r by exact Hsize.
    rewrite Nat2N.id. apply substring_0_all.
Qed.

(** X12, last occurrence: a marker name that contains "_control" is cut
    where its last occurrence starts: the name is the result, then
    "_control", then a rest in which no further occurrence starts. *)
Theorem X12_tip_name_last_control (marker_name : string) :
  occurs_in "_control" marker_name ->
  exists rest,
    marker_name = tipNameFromMarkerName marker_name ++ "_control" ++ rest
    /\ forall a b, "_control" ++ rest = a ++ "_control" ++ b -> a = "".
Proof.
  intros Hocc. unfold tipNameFromMarkerName, StdString.rfind.
  pose proof (rfind_last_spec "_control" marker_name) as Hspec.
  destruct (StdString.rfind_last marker_name "_control") as [p|];
    [|contradiction].
  destruct Hspec as (pre & rest & -> & <- & Hp & Hlast).
  apply string_prefix_spec in Hp as [b ->].
  rewrite substr_0_prefix. exists b. split; [reflexivity|exact Hlast].
Qed.

Lemma marker_name_tip_name (tip_name : string) :
  tipNameFromMarkerName (markerNameFromTipName tip_name) = tip_name.
Proof.
  unfold tipNameFromMarkerName, markerNameFromTipName, StdString.rfind.
  rewrite rfind_last_controls. apply substr_0_prefix.
Qed.

(** X13, distinct tips, distinct markers: [markerNameFromTipName] is
    injective. *)
Theorem X13_marker_name_injective (t1 t2 : string) :
  markerNameFromTipName t1 = markerNameFromTipName t2 -> t1 = t2.
Proof.
  intros H. rewrite <- (marker_name_tip_name t1), <- (marker_name_tip_name t2).
  rewrite H. reflexivity.
Qed.

End MarkerNameProperties.

(** ** The interactive markers *)

Section MarkerProperties.

Context {Pose : Type}.
Variable GetTipLinks : JointModelGroup -> list string.
Variable getModelFrame : RobotModel -> string.
Variable getGlobalLinkTransform : RobotState -> string -> Pose.
Variable server_setPose : list (ServerCall Pose) -> string -> bool.

Local Abbreviation reinit := (reinitInteractiveMarkers GetTipLinks getModelFrame).
Local Abbreviation update :=
  (updateInteractiveMarkers getModelFrame getGlobalLinkTransform server_setPose).
Local Abbreviation set_group := (setActiveJointGroup GetTipLinks getModelFrame).
Local Abbreviation tips_of := (group_tip_links GetTipLinks).

Lemma foldl_add_tip_marker rm (s : IKCommandInteractiveMarker Pose) tips :
  foldl (add_tip_marker getModelFrame rm) s tips
  = {| m_active_group_name := m_active_group_name s;
       m_int_marker_names :=
         m_int_marker_names s ++ (markerNameFromTipName <$> tips);
       m_im_server :=
         m_im_server s
         ++ (Server_insert ∘ tip_marker (getModelFrame rm) <$> tips);
       m_rosout := m_rosout s ++ (INFO_adding_marker <$> tips);
       m_emitted := m_emitted s |}.
Proof.
  revert s. induction tips as [|t tips IH]; intros s.
  - cbn. rewrite !app_nil_r. destruct s; reflexivity.
  - cbn [foldl]. rewrite IH. unfold add_tip_marker. cbn.
    rewrite <- !app_assoc. reflexivity.
Qed.

(** What [reinitInteractiveMarkers] leaves behind, field by field. *)
Lemma reinit_fields orm (s : IKCommandInteractiveMarker Pose) :
  m_active_group_name (reinit orm s) = m_active_group_name s
  /\ m_emitted (reinit orm s) = m_emitted s
  /\ m_int_marker_names (reinit orm s)
     = markerNameFromTipName <$> tips_of orm (m_active_group_name s)
  /\ m_im_server (reinit orm s)
     = m_im_server s ++ [Server_clear]
       ++ (Server_insert ∘ tip_marker (model_frame_of getModelFrame orm)
             <$> tips_of orm (m_active_group_name s))
       ++ [Server_applyChanges].
Proof.
  unfold reinitInteractiveMarkers, group_tip_links, model_frame_of.
  cbv zeta. cbn [m_active_group_name set_int_marker_names server_call ros_marker_log].
  destruct orm as [rm|].
  - destruct (string_empty (m_active_group_name s)); cbn [negb].
    + cbn. rewrite <- !app_assoc. repeat split; reflexivity.
    + destruct (getJointModelGroup rm (m_active_group_name s)) as [jg|].
      * rewrite foldl_add_tip_marker. cbn. rewrite <- !app_assoc.
        repeat split; reflexivity.
      * cbn. rewrite <- !app_assoc. repeat split; reflexivity.
  - destruct (negb _); cbn; rewrite <- !app_assoc; repeat split; reflexivity.
Qed.


Lemma inserted_names_snoc (calls : list (ServerCall Pose)) c :
  inserted_names (calls ++ [c])
  = match c with
    | Server_clear => []
    | Server_insert m => inserted_names calls ++ [IM.name m]
    | Server_setPose _ _ _ | Server_applyChanges => inserted_names calls
    end.
Proof. unfold inserted_names. rewrite foldl_app. reflexivity. Qed.




(** The loop of [updateInteractiveMarkers] with a robot model. *)
Lemma foldl_pose_marker rm st names (s : IKCommandInteractiveMarker Pose) :
  exists s',
    foldl (pose_marker getModelFrame getGlobalLinkTransform server_setPose
             (Some rm) st) (Some s) names = Some s'
    /\ m_active_group_name s' = m_active_group_name s
    /\ m_int_marker_names s' = m_int_marker_names s
    /\ m_emitted s' = m_emitted s
    /\ m_im_server s'
       = m_im_server s
         ++ ((fun n => Server_setPose n
                         (getGlobalLinkTransform st (tipNameFromMarkerName n))
                         (getModelFrame rm)) <$> names)
    /\ ((forall calls n, n ∈ inserted_names calls -> server_setPose calls n = true) ->
        (forall n, n ∈ names -> n ∈ inserted_names (m_im_server s)) ->
        m_rosout s' = m_rosout s).
Proof.
  revert s. induction names as [|n names IH]; intros s.
  - exists s. cbn. rewrite app_nil_r. repeat split; reflexivity.
  - cbn [foldl pose_marker].
    set (s1 := if negb (server_setPose (m_im_server s) n) then _ else _).
    destruct (IH s1) as (s' & Hs' & Hg & Hn & He & Hsrv & Hlog).
    exists s'. subst s1.
    split; [exact Hs'|].
    destruct (server_setPose (m_im_server s) n) eqn:Hok; cbn [negb] in *;
      cbn [m_active_group_name m_int_marker_names m_im_server m_rosout
           m_emitted server_call ros_marker_log] in Hg, Hn, He, Hsrv, Hlog |- *;
      (split_and!; [exact Hg|exact Hn|exact He
                   |rewrite Hsrv, <- app_assoc; reflexivity|]).
    + intros Hlaw Hall. apply Hlog; [exact Hlaw|].
      intros m Hm. rewrite inserted_names_snoc. apply Hall. right. exact Hm.
    + intros Hlaw Hall. exfalso.
      rewrite Hlaw in Hok; [discriminate|]. apply Hall. left.
Qed.


(** X14, the rebuilt names: after [reinitInteractiveMarkers] the recorded
    marker names are those of the tip links of the active group, in order
    (none without a robot, without a group name or for an unknown group),
    and [tipNameFromMarkerName] maps them back to those tip links. *)
Theorem X14_marker_names_after_rebuild orm (s : IKCommandInteractiveMarker Pose) :
  m_int_marker_names (reinit orm s)
  = markerNameFromTipName <$> tips_of orm (m_active_group_name s)
  /\ tipNameFromMarkerName <$> m_int_marker_names (reinit orm s)
     = tips_of orm (m_active_group_name s).
Proof.
  destruct (reinit_fields orm s) as (_ & _ & Hn & _). split; [exact Hn|].
  rewrite Hn, <- list_fmap_compose. rewrite <- (list_fmap_id (tips_of _ _)) at 2.
  apply list_fmap_ext. intros i t _. apply marker_name_tip_name.
Qed.

(** X15, the requests of a rebuild: on every path
    [reinitInteractiveMarkers] sends [clear], then one [insert] per recorded
    marker name, in order, then a single [applyChanges]; each inserted
    marker lives in the model frame and carries six controls. *)
Theorem X15_rebuild_server_protocol orm (s : IKCommandInteractiveMarker Pose) :
  exists markers : list IM.InteractiveMarker,
    m_im_server (reinit orm s)
    = m_im_server s ++ [Server_clear] ++ (Server_insert <$> markers)
      ++ [Server_applyChanges]
    /\ IM.name <$> markers = m_int_marker_names (reinit orm s)
    /\ Forall (fun m => IM.frame_id m = model_frame_of getModelFrame orm
                        /\ length (IM.controls m) = 6%nat) markers.
Proof.
  destruct (reinit_fields orm s) as (_ & _ & Hn & Hs).
  exists (tip_marker (model_frame_of getModelFrame orm)
            <$> tips_of orm (m_active_group_name s)).
  split_and!.
  - rewrite Hs, <- list_fmap_compose. reflexivity.
  - rewrite Hn, <- list_fmap_compose. reflexivity.
  - apply Forall_fmap, Forall_forall. intros t _. split; reflexivity.
Qed.


(** X17, refresh after rebuild: [updateInteractiveMarkers] run on a freshly
    rebuilt object never dereferences a null robot model, and it sets the
    pose of each marker to the transform of the tip link the marker was made
    for, in the model frame, before a single [applyChanges]. *)
Theorem X17_refresh_after_rebuild orm st (s : IKCommandInteractiveMarker Pose) :
  exists s',
    update orm st (reinit orm s) = Some s'
    /\ m_im_server s'
       = m_im_server (reinit orm s)
         ++ ((fun t => Server_setPose (markerNameFromTipName t)
                         (getGlobalLinkTransform st t)
                         (model_frame_of getModelFrame orm))
               <$> tips_of orm (m_active_group_name s))
         ++ [Server_applyChanges]
    /\ m_int_marker_names s' = m_int_marker_names (reinit orm s).
Proof.
  destruct (reinit_fields orm s) as (_ & _ & Hn & _).
  unfold updateInteractiveMarkers. destruct orm as [rm|].
  - destruct (foldl_pose_marker rm st (m_int_marker_names (reinit (Some rm) s))
                (reinit (Some rm) s))
      as (s1 & Hfold & _ & Hn1 & _ & Hsrv & _).
    rewrite Hfold. eexists. split; [reflexivity|].
    cbn [m_im_server m_int_marker_names server_call]. split; [|exact Hn1].
    rewrite Hsrv, Hn, <- list_fmap_compose, <- app_assoc. f_equal. f_equal.
    apply list_fmap_ext. intros i t _. cbn [compose].
    rewrite marker_name_tip_name. reflexivity.
  - change (tips_of None (m_active_group_name s)) with (@nil string) in *.
    cbn [fmap list_fmap] in *. revert Hn.
    generalize (reinit None s). intros r Hn. rewrite Hn. cbn [foldl].
    eexists. split; [reflexivity|].
    cbn [m_im_server m_int_marker_names server_call app]. split; [reflexivity|exact Hn].
Qed.

(** X18, no pose error: with a server that accepts a pose for every marker
    inserted since its last clear, [updateInteractiveMarkers] on an object
    whose names are in sync completes and logs nothing. *)
Theorem X18_refresh_reports_no_error rm st (s : IKCommandInteractiveMarker Pose) :
  (forall calls n, n ∈ inserted_names calls -> server_setPose calls n = true) ->
  markers_in_sync s ->
  exists s', update (Some rm) st s = Some s' /\ m_rosout s' = m_rosout s.
Proof.
  intros Hlaw Hsync. unfold updateInteractiveMarkers.
  destruct (foldl_pose_marker rm st (m_int_marker_names s) s)
    as (s1 & Hfold & _ & _ & _ & _ & Hlog).
  rewrite Hfold. eexists. split; [reflexivity|].
  cbn [m_rosout server_call]. apply Hlog; [exact Hlaw|].
  intros n Hn. rewrite <- Hsync. exact Hn.
Qed.

Lemma set_group_active_name orm g (s : IKCommandInteractiveMarker Pose) :
  m_active_group_name (set_group orm g s) = g.
Proof.
  unfold setActiveJointGroup.
  destruct (String.eqb_spec g (m_active_group_name s)) as [->|Hne];
    reflexivity.
Qed.

Lemma set_group_same_name orm (s : IKCommandInteractiveMarker Pose) :
  set_group orm (m_active_group_name s) s = s.
Proof. unfold setActiveJointGroup. rewrite String.eqb_refl. reflexivity. Qed.

(** X19, setting the group twice: a second [setActiveJointGroup] with the
    same name changes nothing: no rebuild, no signal. *)
Theorem X19_set_group_twice orm g (s : IKCommandInteractiveMarker Pose) :
  set_group orm g (set_group orm g s) = set_group orm g s.
Proof.
  rewrite <- (set_group_active_name orm g s) at 1.
  apply set_group_same_name.
Qed.

(** X20, order of a group change: [setActiveJointGroup] with a new name
    rebuilds the markers before it stores the name, so the markers are those
    of the group that was active until then; the new name is stored and
    signalled once, and the next [updateRobotModel] makes the markers of the
    new group. *)
Theorem X20_set_group_rebuilds_previous orm g (s : IKCommandInteractiveMarker Pose) :
  g <> m_active_group_name s ->
  m_active_group_name (set_group orm g s) = g
  /\ m_emitted (set_group orm g s) = m_emitted s ++ [g]
  /\ m_int_marker_names (set_group orm g s)
     = markerNameFromTipName <$> tips_of orm (m_active_group_name s)
  /\ m_int_marker_names
       (updateRobotModel GetTipLinks getModelFrame orm (set_group orm g s))
     = markerNameFromTipName <$> tips_of orm g.
Proof.
  intros Hne. apply String.eqb_neq in Hne.
  unfold setActiveJointGroup. rewrite Hne. cbn [negb]. cbv zeta.
  destruct (reinit_fields orm s) as (_ & He & Hn & _).
  split_and!.
  - reflexivity.
  - cbn. rewrite He. reflexivity.
  - cbn. exact Hn.
  - unfold updateRobotModel.
    destruct (reinit_fields orm
                (emit_updateActiveJointGroup g
                   (set_active_group_name g (reinit orm s))))
      as (_ & _ & Hn' & _).
    exact Hn'.
Qed.

End MarkerProperties.

(** ** The command panel *)

Section PanelProperties.

Context {MarkerBody : Type}.

Lemma int_wrap_small z : (- 2 ^ 31 <= z < 2 ^ 31)%Z -> Panel.int_wrap z = z.
Proof.
  intros Hz. unfold Panel.int_wrap.
  rewrite Z.mod_small by lia. lia.
Qed.

Lemma paint_markers_from valid ns_ (markers : list (Panel.Marker MarkerBody))
    (k : Z) (out : list (Panel.Marker MarkerBody)) :
  (markers <> [] -> (0 <= k)%Z /\ (k + Z.of_nat (length markers) <= 2 ^ 31)%Z) ->
  snd (foldl (fun '(id_, out) marker =>
                (Panel.int_wrap (id_ + 1),
                 out ++ [Panel.paint_marker valid ns_ id_ marker]))
             (k, out) markers)
  = out ++ imap (fun i => Panel.paint_marker valid ns_ (k + Z.of_nat i))
             markers.
Proof.
  revert k out. induction markers as [|m markers IH]; intros k out Hk.
  - cbn. rewrite app_nil_r. reflexivity.
  - destruct Hk as [Hk0 Hk1]; [discriminate|]. cbn [length] in Hk1.
    cbn [foldl]. rewrite IH.
    + rewrite imap_cons, <- app_assoc. cbn [app]. rewrite Z.add_0_r.
      f_equal. f_equal. apply imap_ext. intros i x Hix. cbn [compose].
      destruct markers as [|m' markers]; [destruct i; discriminate Hix|].
      rewrite int_wrap_small by (cbn [length] in Hk1; lia).
      f_equal. lia.
    + intros Hne. destruct markers as [|m' markers]; [contradiction|].
      cbn [length] in Hk1 |- *.
      rewrite int_wrap_small by lia. lia.
Qed.

(** X21, the published array: for a loaded robot with at most 2^31 markers
    [updateRobotVisualization] publishes the markers of the robot state in
    their order, each with the validity colour, the namespace
    "<robot>_phantom", embedded materials off and its position as id; the
    other fields are untouched and nothing is logged. *)
Theorem X21_published_markers (robot_name : string)
    (robot_markers : list (Panel.Marker MarkerBody)) (valid : Panel.tribool) :
  (Z.of_nat (length robot_markers) <= 2 ^ 31)%Z ->
  Panel.updateRobotVisualization true robot_name robot_markers valid
  = (Some (imap (fun i marker =>
                   {| Panel.body := Panel.body marker;
                      Panel.mesh_use_embedded_materials := false;
                      Panel.color := Panel.validity_color valid;
                      Panel.ns := (robot_name ++ "_phantom")%string;
                      Panel.id := Z.of_nat i |})
             robot_markers),
     []).
Proof.
  intros Hlen. unfold Panel.updateRobotVisualization, Panel.paint_markers.
  cbn [negb]. cbv zeta. rewrite paint_markers_from by (intros _; lia).
  reflexivity.
Qed.

(** X22, marker ids: the published markers are as many as the robot state
    gave, their ids count up from 0 and no two of them share an id. *)
Theorem X22_published_ids_distinct (robot_name : string)
    (robot_markers : list (Panel.Marker MarkerBody)) (valid : Panel.tribool)
    (published : list (Panel.Marker MarkerBody)) :
  (Z.of_nat (length robot_markers) <= 2 ^ 31)%Z ->
  fst (Panel.updateRobotVisualization true robot_name robot_markers valid)
  = Some published ->
  length published = length robot_markers
  /\ Panel.id <$> published = Z.of_nat <$> seq 0 (length robot_markers)
  /\ NoDup (Panel.id <$> published).
Proof.
  intros Hlen. unfold Panel.updateRobotVisualization, Panel.paint_markers.
  cbn [negb fst]. cbv zeta. rewrite paint_markers_from by (intros _; lia).
  intros [= <-]. cbn [app].
  assert (Hids : Panel.id <$> imap (fun i => Panel.paint_marker valid
                     (robot_name ++ "_phantom")%string (0 + Z.of_nat i))
                   robot_markers
                 = Z.of_nat <$> seq 0 (length robot_markers)).
  { rewrite fmap_imap. rewrite <- imap_seq_0. apply imap_ext.
    intros i x _. reflexivity. }
  split_and!.
  - apply length_imap.
  - exact Hids.
  - rewrite Hids. apply NoDup_fmap_2; [|apply NoDup_seq].
    intros x y Hxy. lia.
Qed.


End PanelProperties.

(** ** The further properties on the demo robot *)




Lemma X7_witness :
  rosout (normalize Demo.robot Demo.arm Demo.seed (Demo.world Demo.solved))
  = rosout (Demo.world Demo.solved)
    ++ (WARN_out_of_bounds
          <$> List.filter
                (candidate_rejected Demo.robot Demo.arm Demo.seed Demo.solved)
                (seq 0 (length Demo.seed))).
Proof.
  apply (X7_warnings_exact Demo.robot Demo.arm Demo.seed (Demo.world Demo.solved)).
  demo_wf.
Defined.



Lemma X10_witness :
  robot_state (processInteractiveMarkerFeedback Demo.solver_ok Demo.robot "arm"
                 Demo.drag (Demo.world Demo.before)) !! 0%nat
  = Demo.solved !! 0%nat.
Proof.
  apply (X10_drag_frame Demo.solver_ok Demo.robot "arm" Demo.arm Demo.drag
           (Demo.world Demo.before) Demo.solved 0).
  - reflexivity.
  - reflexivity.
  - reflexivity.
  - apply (bool_decide_unpack _). vm_compute. exact I.
Defined.

Lemma X11_witness : tipNameFromMarkerName "elbow" = "elbow"%string.
Proof.
  apply (X11_tip_name_without_control "elbow").
  - exact (rfind_last_spec "_control" "elbow").
  - vm_compute. discriminate.
Defined.

Lemma X12_witness :
  exists rest : string,
    "wrist_control_link_controls"%string
    = (tipNameFromMarkerName "wrist_control_link_controls" ++ "_control" ++ rest)%string
    /\ forall a b : string,
         ("_control" ++ rest)%string = (a ++ "_control" ++ b)%string ->
         a = ""%string.
Proof.
  apply (X12_tip_name_last_control "wrist_control_link_controls").
  exists "wrist_control_link"%string, "s"%string. reflexivity.
Defined.

Lemma X13_witness : "wrist"%string = "wrist"%string.
Proof.
  apply (X13_marker_name_injective "wrist" "wrist"). reflexivity.
Defined.


Lemma X18_witness :
  exists s',
    updateInteractiveMarkers DemoMarkers.model_frame DemoMarkers.link_pose
      DemoMarkers.server (Some Demo.robot) Demo.before DemoMarkers.rebuilt
    = Some s'
    /\ m_rosout s' = m_rosout DemoMarkers.rebuilt.
Proof.
  apply (X18_refresh_reports_no_error DemoMarkers.model_frame
           DemoMarkers.link_pose DemoMarkers.server Demo.robot Demo.before
           DemoMarkers.rebuilt).
  - intros calls n Hn. apply bool_decide_eq_true_2. exact Hn.
  - reflexivity.
Defined.

Lemma X20_witness :
  m_active_group_name
    (setActiveJointGroup DemoMarkers.tip_links DemoMarkers.model_frame
       (Some Demo.robot) "arm" DemoMarkers.start) = "arm"%string
  /\ m_emitted
       (setActiveJointGroup DemoMarkers.tip_links DemoMarkers.model_frame
          (Some Demo.robot) "arm" DemoMarkers.start)
     = m_emitted DemoMarkers.start ++ ["arm"%string]
  /\ m_int_marker_names
       (setActiveJointGroup DemoMarkers.tip_links DemoMarkers.model_frame
          (Some Demo.robot) "arm" DemoMarkers.start)
     = markerNameFromTipName
         <$> group_tip_links DemoMarkers.tip_links (Some Demo.robot)
               (m_active_group_name DemoMarkers.start)
  /\ m_int_marker_names
       (updateRobotModel DemoMarkers.tip_links DemoMarkers.model_frame
          (Some Demo.robot)
          (setActiveJointGroup DemoMarkers.tip_links DemoMarkers.model_frame
             (Some Demo.robot) "arm" DemoMarkers.start))
     = markerNameFromTipName
         <$> group_tip_links DemoMarkers.tip_links (Some Demo.robot) "arm".
Proof.
  apply (X20_set_group_rebuilds_previous DemoMarkers.tip_links
           DemoMarkers.model_frame (Some Demo.robot) "arm" DemoMarkers.start).
  discriminate.
Defined.

Lemma X21_witness :
  Panel.updateRobotVisualization true "pr2" DemoMarkers.robot_markers
    Panel.indeterminate
  = (Some (imap (fun i marker =>
                   {| Panel.body := Panel.body marker;
                      Panel.mesh_use_embedded_materials := false;
                      Panel.color := Panel.validity_color Panel.indeterminate;
                      Panel.ns := "pr2_phantom"%string;
                      Panel.id := Z.of_nat i |})
             DemoMarkers.robot_markers),
     []).
Proof.
  apply (X21_published_markers "pr2" DemoMarkers.robot_markers
           Panel.indeterminate).
  cbn. lia.
Defined.

Lemma X22_witness :
  length (snd (Panel.paint_markers Panel.tribool_true "pr2_phantom"
                 DemoMarkers.robot_markers))
  = length DemoMarkers.robot_markers
  /\ Panel.id <$> snd (Panel.paint_markers Panel.tribool_true "pr2_phantom"
                         DemoMarkers.robot_markers)
     = Z.of_nat <$> seq 0 (length DemoMarkers.robot_markers)
  /\ NoDup (Panel.id <$> snd (Panel.paint_markers Panel.tribool_true
                                "pr2_phantom" DemoMarkers.robot_markers)).
Proof.
  apply (X22_published_ids_distinct "pr2" DemoMarkers.robot_markers
           Panel.tribool_true).
  - cbn. lia.
  - reflexivity.
Defined.


(** The demo object through a group change, a model update and a state
    update: the markers appear only with the model update, and each is then
    posed at its own tip link. *)
Example demo_marker_life :
  m_int_marker_names
    (setActiveJointGroup DemoMarkers.tip_links DemoMarkers.model_frame
       (Some Demo.robot) "arm" DemoMarkers.start) = []
  /\ m_int_marker_names
       (updateRobotModel DemoMarkers.tip_links DemoMarkers.model_frame
          (Some Demo.robot)
          (setActiveJointGroup DemoMarkers.tip_links DemoMarkers.model_frame
             (Some Demo.robot) "arm" DemoMarkers.start))
     = ["wrist_control_link_controls"; "gripper_controls"]%string
  /\ (m_im_server
        <$> updateRobotState DemoMarkers.model_frame DemoMarkers.link_pose
              DemoMarkers.server (Some Demo.robot) Demo.before
              (set_int_marker_names
                 ["wrist_control_link_controls"; "gripper_controls"]%string
                 DemoMarkers.start))
     = Some [Server_setPose "wrist_control_link_controls" "wrist_control_link"
               "base_link";
             Server_setPose "gripper_controls" "gripper" "base_link";
             Server_applyChanges]%string.
Proof. split_and!; reflexivity. Qed.
